(** * A shallow embedding of [src/name_section.rs] (wasm-bloat)

    The "name" custom section codec of a WebAssembly module: the tagged
    [NameSection] union, its length-prefixed framing, and the three
    sub-section codecs.  Bytes are integers in [0, 256), byte streams are
    [list Z].  Decoding runs in a small state-and-error monad over a
    [Reader]: the bytes not yet consumed, together with the log of the
    payload buffers allocated by the decoder ([vec![0u8; n]]).  Encoding
    writes into a fresh [Vec<u8>], which cannot fail; the only failure of
    an encoder is the assertion of [VarUint32::from(usize)], modelled as
    [None]. *)

From Stdlib Require Import ZArith List Lia Bool Sorting.Sorted.
Import ListNotations.
Open Scope Z_scope.

(* ------------------------------------------------------------------ *)
(** ** Errors and the decoding monad *)

(** The error kinds reported by [parity_wasm::elements::Error] on the
    paths used here. *)
Inductive Error :=
  | UnexpectedEof          (* [read_exact] hits the end of the stream *)
  | InvalidVarUint32
  | NonUtf8String
  | IndicesOutOfOrder.

Inductive Result (A : Type) :=
  | Ok (a : A)
  | Err (e : Error).
Arguments Ok {A} a.
Arguments Err {A} e.

(** The reader: the bytes left in the stream, and the sizes of the
    buffers allocated so far, in allocation order. *)
Record Reader := mkReader { input : list Z; allocations : list Z }.

Definition Decode (A : Type) := Reader -> Reader * Result A.

Definition ret {A} (a : A) : Decode A := fun r => (r, Ok a).
Definition fail {A} (e : Error) : Decode A := fun r => (r, Err e).
Definition bind {A B} (m : Decode A) (f : A -> Decode B) : Decode B :=
  fun r => match m r with
           | (r', Ok a) => f a r'
           | (r', Err e) => (r', Err e)
           end.

Notation "x <- m ;; k" := (bind m (fun x => k))
  (at level 61, m at next level, right associativity).

(** [Read::read_exact] into a buffer of [n] bytes: the buffer is filled
    with the next [n] bytes, or the read fails when fewer are left. *)
Definition read_exact (n : Z) : Decode (list Z) := fun r =>
  if n <=? Z.of_nat (length (input r))
  then (mkReader (skipn (Z.to_nat n) (input r)) (allocations r),
        Ok (firstn (Z.to_nat n) (input r)))
  else (mkReader [] (allocations r), Err UnexpectedEof).

Definition read_byte : Decode Z := fun r =>
  match input r with
  | b :: rest => (mkReader rest (allocations r), Ok b)
  | [] => (r, Err UnexpectedEof)
  end.

(** [vec![0u8; n]]: a zero-filled buffer of [n] bytes.  The allocation
    is logged; since [read_exact] overwrites all of it, the buffer is
    represented by its length. *)
Definition vec_zeroed (n : Z) : Decode Z := fun r =>
  (mkReader (input r) (allocations r ++ [n]), Ok n).

(** Options for the encoders ([None] is the panic of an assertion). *)
Notation "'let?' x := m 'in' k" :=
  (match m with Some x => k | None => None end)
  (at level 200, x name, m at level 100, k at level 200).

(* ------------------------------------------------------------------ *)
(** ** Variable-length integers ([parity_wasm::elements::{VarUint7, VarUint32}]) *)

(** [VarUint7::deserialize] reads one byte into a [u8], with no range
    check, so every byte value comes back as the tag.  Writing emits the
    byte. *)
Definition varuint7_deserialize : Decode Z :=
  b <- read_byte;; ret b.

Definition varuint7_serialize (v : Z) : list Z := [v].

(** [VarUint32::deserialize]: unsigned LEB128, seven bits per byte, low
    group first, at most five bytes, the fifth carrying at most four
    bits. *)
Fixpoint varuint32_loop (fuel : nat) (shift res : Z) : Decode Z :=
  match fuel with
  | O => fail InvalidVarUint32
  | S fuel' =>
      b <- read_byte;;
      let res' := Z.lor res (Z.shiftl (Z.land b 127) shift) in
      if Z.shiftr b 7 =? 0 then
        if (32 <=? shift + 7) && (16 <=? b) then fail InvalidVarUint32
        else ret res'
      else varuint32_loop fuel' (shift + 7) res'
  end.

Definition varuint32_deserialize : Decode Z := varuint32_loop 5 0 0.

(** [VarUint32::serialize]: emit the low seven bits, shift, set the
    continuation bit while something is left.  A [u32] needs at most
    five rounds. *)
Fixpoint varuint32_loop_ser (fuel : nat) (v : Z) : list Z :=
  match fuel with
  | O => []
  | S fuel' =>
      let b := Z.land v 127 in
      let v' := Z.shiftr v 7 in
      if v' =? 0 then [b] else Z.lor b 128 :: varuint32_loop_ser fuel' v'
  end.

Definition varuint32_serialize (v : Z) : list Z := varuint32_loop_ser 5 v.

Definition U32_MAX : Z := 2 ^ 32 - 1.

(** [VarUint32::from(usize)]: asserts that the length fits in a [u32]. *)
Definition varuint32_from_usize (n : nat) : option Z :=
  if Z.of_nat n <=? U32_MAX then Some (Z.of_nat n) else None.

(* ------------------------------------------------------------------ *)
(** ** Strings ([impl Serialize/Deserialize for String] in parity_wasm) *)

(** A Rust [String] is represented by its UTF-8 bytes. *)
Definition RString := list Z.

Definition in_range (lo hi b : Z) : bool := (lo <=? b) && (b <=? hi).
Definition is_cont (b : Z) : bool := in_range 128 191 b.

(** [String::from_utf8]'s check: well-formed UTF-8, no overlong forms,
    no surrogates, nothing above U+10FFFF. *)
Fixpoint utf8_valid (s : list Z) : bool :=
  match s with
  | [] => true
  | b :: r =>
      if in_range 0 127 b then utf8_valid r
      else if in_range 194 223 b then
        match r with
        | c1 :: r1 => is_cont c1 && utf8_valid r1
        | _ => false
        end
      else if in_range 224 239 b then
        match r with
        | c1 :: c2 :: r2 =>
            (if b =? 224 then in_range 160 191 c1
             else if b =? 237 then in_range 128 159 c1
             else is_cont c1) && is_cont c2 && utf8_valid r2
        | _ => false
        end
      else if in_range 240 244 b then
        match r with
        | c1 :: c2 :: c3 :: r3 =>
            (if b =? 240 then in_range 144 191 c1
             else if b =? 244 then in_range 128 143 c1
             else is_cont c1) && is_cont c2 && is_cont c3 && utf8_valid r3
        | _ => false
        end
      else false
  end.

Definition string_serialize (s : RString) : option (list Z) :=
  let? len := varuint32_from_usize (length s) in
  Some (varuint32_serialize len ++ s).

Definition string_deserialize : Decode RString :=
  length <- varuint32_deserialize;;
  bytes <- read_exact length;;
  if utf8_valid bytes then ret bytes else fail NonUtf8String.

(* ------------------------------------------------------------------ *)
(** ** [IndexMap<T>] (the crate's [index_map] module) *)

(** Modelled from the spec: the [index_map] module of this crate is not
    among the sources.  Section 3 and 4.3 of the spec: a map from [u32]
    indices to values, keys unique, iterated and serialized in ascending
    key order, inserting at a present key replaces its value; the wire
    form is the entry count, then each entry as (index, value), and
    decoding insists on strictly ascending indices.  The map is kept as
    its list of entries in ascending key order. *)
Record IndexMap (T : Type) := mkIndexMap { entries : list (Z * T) }.
Arguments mkIndexMap {T} entries.
Arguments entries {T} i.

Definition index_map_empty {T} : IndexMap T := mkIndexMap [].

Fixpoint insert_entry {T} (idx : Z) (value : T) (l : list (Z * T))
  : list (Z * T) :=
  match l with
  | [] => [(idx, value)]
  | (k, v) :: r =>
      if idx <? k then (idx, value) :: l
      else if idx =? k then (idx, value) :: r
      else (k, v) :: insert_entry idx value r
  end.

Definition index_map_insert {T} (idx : Z) (value : T) (m : IndexMap T)
  : IndexMap T :=
  mkIndexMap (insert_entry idx value (entries m)).

Definition index_map_get {T} (idx : Z) (m : IndexMap T) : option T :=
  match find (fun e => fst e =? idx) (entries m) with
  | Some (_, v) => Some v
  | None => None
  end.

Definition index_map_len {T} (m : IndexMap T) : nat := length (entries m).

Fixpoint serialize_entries {T} (ser : T -> option (list Z))
    (l : list (Z * T)) : option (list Z) :=
  match l with
  | [] => Some []
  | (idx, value) :: r =>
      let? vb := ser value in
      let? rb := serialize_entries ser r in
      Some (varuint32_serialize idx ++ vb ++ rb)
  end.

Definition index_map_serialize {T} (ser : T -> option (list Z))
    (m : IndexMap T) : option (list Z) :=
  let? len := varuint32_from_usize (index_map_len m) in
  let? body := serialize_entries ser (entries m) in
  Some (varuint32_serialize len ++ body).

Fixpoint deserialize_entries {T} (de : Decode T) (n : nat)
    (prev_idx : option Z) (map : IndexMap T) : Decode (IndexMap T) :=
  match n with
  | O => ret map
  | S n' =>
      idx <- varuint32_deserialize;;
      if match prev_idx with Some prev => idx <=? prev | None => false end
      then fail IndicesOutOfOrder
      else
        value <- de;;
        deserialize_entries de n' (Some idx) (index_map_insert idx value map)
  end.

Definition index_map_deserialize {T} (de : Decode T) : Decode (IndexMap T) :=
  len <- varuint32_deserialize;;
  deserialize_entries de (Z.to_nat len) None index_map_empty.

(** [pub type NameMap = IndexMap<String>;] *)
Definition NameMap := IndexMap RString.

Definition name_map_serialize : NameMap -> option (list Z) :=
  index_map_serialize string_serialize.

Definition name_map_deserialize : Decode NameMap :=
  index_map_deserialize string_deserialize.

(* ------------------------------------------------------------------ *)
(** ** The sub-sections *)

Record ModuleNameSection := mkModuleNameSection { name : RString }.
Record FunctionNameSection := mkFunctionNameSection { names : NameMap }.
Record LocalNameSection :=
  mkLocalNameSection { local_names : IndexMap NameMap }.

Definition module_serialize (m : ModuleNameSection) : option (list Z) :=
  string_serialize (name m).

Definition module_deserialize : Decode ModuleNameSection :=
  n <- string_deserialize;; ret (mkModuleNameSection n).

Definition function_serialize (f : FunctionNameSection) : option (list Z) :=
  name_map_serialize (names f).

Definition function_deserialize : Decode FunctionNameSection :=
  n <- name_map_deserialize;; ret (mkFunctionNameSection n).

Definition local_serialize (l : LocalNameSection) : option (list Z) :=
  index_map_serialize name_map_serialize (local_names l).

Definition local_deserialize : Decode LocalNameSection :=
  n <- index_map_deserialize name_map_deserialize;;
  ret (mkLocalNameSection n).

(* ------------------------------------------------------------------ *)
(** ** [NameSection] *)

Definition NAME_TYPE_MODULE : Z := 0.
Definition NAME_TYPE_FUNCTION : Z := 1.
Definition NAME_TYPE_LOCAL : Z := 2.

Inductive NameSection :=
  | Module (m : ModuleNameSection)
  | Function (f : FunctionNameSection)
  | Local (l : LocalNameSection)
  | Unparsed (name_type : Z) (name_payload : list Z).

(** [impl Serialize for NameSection]. *)
Definition name_section_serialize (s : NameSection) : option (list Z) :=
  let? tp := match s with
             | Module mod_name =>
                 let? buffer := module_serialize mod_name in
                 Some (NAME_TYPE_MODULE, buffer)
             | Function fn_names =>
                 let? buffer := function_serialize fn_names in
                 Some (NAME_TYPE_FUNCTION, buffer)
             | Local local_names =>
                 let? buffer := local_serialize local_names in
                 Some (NAME_TYPE_LOCAL, buffer)
             | Unparsed name_type name_payload =>
                 Some (name_type, name_payload)
             end in
  let (name_type, name_payload) := tp in
  let? len := varuint32_from_usize (length name_payload) in
  Some (varuint7_serialize name_type ++ varuint32_serialize len
        ++ name_payload).

(** [impl Deserialize for NameSection]. *)
Definition name_section_deserialize : Decode NameSection :=
  name_type <- varuint7_deserialize;;
  name_payload_len <- varuint32_deserialize;;
  if name_type =? NAME_TYPE_MODULE then
    m <- module_deserialize;; ret (Module m)
  else if name_type =? NAME_TYPE_FUNCTION then
    f <- function_deserialize;; ret (Function f)
  else if name_type =? NAME_TYPE_LOCAL then
    l <- local_deserialize;; ret (Local l)
  else
    buffer <- vec_zeroed name_payload_len;;
    name_payload <- read_exact buffer;;
    ret (Unparsed name_type name_payload).

(** Decoding a whole buffer with a fresh reader ([Cursor::new(buffer)]). *)
Definition decode (bytes : list Z) : Reader * Result NameSection :=
  name_section_deserialize (mkReader bytes []).

(** The decoded value alone. *)
Definition decode_value (bytes : list Z) : option NameSection :=
  match snd (decode bytes) with Ok v => Some v | Err _ => None end.

(* ------------------------------------------------------------------ *)
(** ** Invariants of constructible values *)

(** An [IndexMap]'s entries: [u32] keys in strictly ascending order, each
    value satisfying [ok]; [prev] is the key before the list. *)
Fixpoint entries_ok {T} (ok : T -> bool) (prev : option Z)
    (l : list (Z * T)) : bool :=
  match l with
  | [] => true
  | (k, v) :: r =>
      match prev with Some p => p <? k | None => 0 <=? k end
      && (k <=? U32_MAX) && ok v && entries_ok ok (Some k) r
  end.

Definition index_map_ok {T} (ok : T -> bool) (m : IndexMap T) : bool :=
  entries_ok ok None (entries m).

Definition name_map_ok : NameMap -> bool := index_map_ok utf8_valid.

(** The values a Rust program can build: [String]s hold UTF-8, [u8]s are
    bytes, [IndexMap]s keep their keys ascending. *)
Definition name_section_ok (s : NameSection) : bool :=
  match s with
  | Module m => utf8_valid (name m)
  | Function f => name_map_ok (names f)
  | Local l => index_map_ok name_map_ok (local_names l)
  | Unparsed t p => in_range 0 255 t && forallb (in_range 0 255) p
  end.

(** The tag an [Unparsed] value is written with is one the decoder
    brings back to [Unparsed]. *)
Definition unparsed_tag_ok (s : NameSection) : bool :=
  match s with
  | Unparsed t _ => in_range 3 255 t
  | _ => true
  end.

(** An encoder/decoder pair such that decoding an encoding gives the value
    back and leaves the rest of the stream. *)
Definition roundtrip {T} (ok : T -> bool) (ser : T -> option (list Z))
    (de : Decode T) : Prop :=
  forall v bs rest a, ok v = true -> ser v = Some bs ->
    de (mkReader (bs ++ rest) a) = (mkReader rest a, Ok v).

(** The payload a value is framed with, and the tag written before it. *)
Definition tag_and_payload (s : NameSection) : option (Z * list Z) :=
  match s with
  | Module m => let? b := module_serialize m in Some (NAME_TYPE_MODULE, b)
  | Function f => let? b := function_serialize f in Some (NAME_TYPE_FUNCTION, b)
  | Local l => let? b := local_serialize l in Some (NAME_TYPE_LOCAL, b)
  | Unparsed t p => Some (t, p)
  end.

Definition keys_bounded {T} (prev : option Z) (m : list (Z * T)) : Prop :=
  match prev with
  | None => m = []
  | Some p => 0 <= p /\ Forall (fun e => fst e <= p) m
  end.

(** A byte field that the [VarUint32] reader consumes whole, whatever
    follows it, giving [n]. *)
Definition varuint32_field (f : list Z) (n : Z) : Prop :=
  forall x a, varuint32_deserialize (mkReader (f ++ x) a) = (mkReader x a, Ok n).

(** A sequence of [insert] calls on a map, in order. *)
Definition insert_all {T} (ins : list (Z * T)) (m : IndexMap T) : IndexMap T :=
  fold_left (fun acc e => index_map_insert (fst e) (snd e) acc) ins m.

(** The value inserted last under [k] in a sequence of insertions. *)
Definition last_inserted {T} (k : Z) (ins : list (Z * T)) : option T :=
  fold_left (fun acc e => if fst e =? k then Some (snd e) else acc) ins None.

(** Decoders that leave the allocation log alone. *)
Definition preserves_allocations {A} (m : Decode A) : Prop :=
  forall r, allocations (fst (m r)) = allocations r.

(** An entry whose key comes after [prev]. *)
Definition above {T} (prev : option Z) (e : Z * T) : Prop :=
  match prev with Some p => p < fst e | None => 0 <= fst e end.

(* ------------------------------------------------------------------ *)
(** ** The wire format of the spec (section 6), varints in shortest form *)

(** [wire_string bs s]: [bs] is the length-prefixed UTF-8 string [s]. *)
Inductive wire_string : list Z -> RString -> Prop :=
  | WireString s :
      utf8_valid s = true -> Z.of_nat (length s) <= U32_MAX ->
      wire_string (varuint32_serialize (Z.of_nat (length s)) ++ s) s.

(** Map entries [(index, value)], indices strictly ascending after
    [prev]. *)
Inductive wire_entries {T} (wire_value : list Z -> T -> Prop)
    : option Z -> list Z -> list (Z * T) -> Prop :=
  | WireNil prev : wire_entries wire_value prev [] []
  | WireCons prev k vb v rb r :
      match prev with Some p => p < k | None => 0 <= k end ->
      k <= U32_MAX -> wire_value vb v ->
      wire_entries wire_value (Some k) rb r ->
      wire_entries wire_value prev (varuint32_serialize k ++ vb ++ rb)
                   ((k, v) :: r).

Inductive wire_index_map {T} (wire_value : list Z -> T -> Prop)
    : list Z -> IndexMap T -> Prop :=
  | WireIndexMap bs l :
      wire_entries wire_value None bs l -> Z.of_nat (length l) <= U32_MAX ->
      wire_index_map wire_value
        (varuint32_serialize (Z.of_nat (length l)) ++ bs) (mkIndexMap l).

Definition wire_name_map : list Z -> NameMap -> Prop :=
  wire_index_map wire_string.

(** The payload of a sub-section with tag [t]. *)
Inductive wire_payload : Z -> list Z -> Prop :=
  | WireModule p s : wire_string p s -> wire_payload 0 p
  | WireFunction p m : wire_name_map p m -> wire_payload 1 p
  | WireLocal p m : wire_index_map wire_name_map p m -> wire_payload 2 p
  | WireOther t p :
      3 <= t <= 127 -> forallb (in_range 0 255) p = true -> wire_payload t p.

(** A correctly formed name section: tag, payload length, payload. *)
Definition wire_section (bs : list Z) : Prop :=
  exists t p, wire_payload t p /\ Z.of_nat (length p) <= U32_MAX /\
    bs = [t] ++ varuint32_serialize (Z.of_nat (length p)) ++ p.

(* ------------------------------------------------------------------ *)
(** ** Lemmas: the monad and the varints *)

Lemma bind_ok {A B} (m : Decode A) (f : A -> Decode B) r r' a :
  m r = (r', Ok a) -> bind m f r = f a r'.
Proof. intros H. unfold bind. rewrite H. reflexivity. Qed.

Lemma lor_disjoint a c n :
  0 <= n -> 0 <= a < 2 ^ n -> 0 <= c ->
  Z.lor a (c * 2 ^ n) = a + c * 2 ^ n.
Proof.
  intros Hn Ha Hc.
  assert (Hl : Z.land a (c * 2 ^ n) = 0).
  { apply Z.bits_inj'. intros i Hi. rewrite Z.land_spec, Z.bits_0.
    destruct (Z.lt_ge_cases i n) as [Hlt | Hge].
    - rewrite Z.mul_pow2_bits_low by lia. apply andb_false_r.
    - rewrite <- (Z.mod_small a (2 ^ n)) by lia.
      rewrite Z.mod_pow2_bits_high by lia. reflexivity. }
  rewrite <- Z.lxor_lor by exact Hl.
  rewrite Z.add_nocarry_lxor by exact Hl. reflexivity.
Qed.

Lemma land_127 x : Z.land x 127 = x mod 128.
Proof. change 127 with (Z.ones 7). rewrite Z.land_ones by lia. reflexivity. Qed.

Lemma shiftr_7 x : Z.shiftr x 7 = x / 128.
Proof. rewrite Z.shiftr_div_pow2 by lia. reflexivity. Qed.

Lemma lor_128 x : 0 <= x < 128 -> Z.lor x 128 = x + 128.
Proof.
  intros H. exact (lor_disjoint x 1 7 ltac:(lia) ltac:(simpl; lia) ltac:(lia)).
Qed.

Lemma shiftl_mul x s : 0 <= s -> Z.shiftl x s = x * 2 ^ s.
Proof. intros. rewrite Z.shiftl_mul_pow2 by lia. reflexivity. Qed.

Lemma varuint32_loop_ser_small f x :
  0 <= x < 128 -> varuint32_loop_ser (S f) x = [x].
Proof.
  intros Hx. cbn [varuint32_loop_ser].
  rewrite shiftr_7, Z.div_small by lia. cbn [Z.eqb].
  rewrite land_127, Z.mod_small by lia. reflexivity.
Qed.

Lemma varuint32_loop_S fuel shift res :
  varuint32_loop (S fuel) shift res =
  (b <- read_byte;;
   let res' := Z.lor res (Z.shiftl (Z.land b 127) shift) in
   if Z.shiftr b 7 =? 0 then
     if (32 <=? shift + 7) && (16 <=? b) then fail InvalidVarUint32
     else ret res'
   else varuint32_loop fuel (shift + 7) res').
Proof. reflexivity. Qed.

Lemma varuint32_loop_ser_step f x :
  128 <= x ->
  varuint32_loop_ser (S f) x = Z.lor (x mod 128) 128 :: varuint32_loop_ser f (x / 128).
Proof.
  intros Hx.
  change (varuint32_loop_ser (S f) x) with
    (if Z.shiftr x 7 =? 0 then [Z.land x 127]
     else Z.lor (Z.land x 127) 128 :: varuint32_loop_ser f (Z.shiftr x 7)).
  rewrite shiftr_7, land_127.
  replace (x / 128 =? 0) with false
    by (symmetry; apply Z.eqb_neq;
        assert (1 <= x / 128) by (apply Z.div_le_lower_bound; lia); lia).
  reflexivity.
Qed.

(** The last byte of an encoding ends the decoding loop. *)
Lemma varuint32_loop_last fd x j res rest a :
  0 <= j -> 0 <= x < 128 -> 0 <= res < 2 ^ (7 * j) ->
  x * 2 ^ (7 * j) < 2 ^ 32 ->
  varuint32_loop (S fd) (7 * j) res (mkReader (x :: rest) a)
  = (mkReader rest a, Ok (res + x * 2 ^ (7 * j))).
Proof.
  intros Hj Hx Hres Hb.
  cbn [varuint32_loop]. unfold bind at 1, read_byte. cbn [input allocations].
  rewrite land_127, Z.mod_small by lia.
  rewrite shiftr_7, Z.div_small by lia. cbn [Z.eqb].
  assert (Hfin : ((32 <=? 7 * j + 7) && (16 <=? x)) = false).
  { destruct (Z.leb_spec 32 (7 * j + 7)); destruct (Z.leb_spec 16 x); try reflexivity.
    exfalso. assert (Hj4 : 4 <= j) by lia.
    assert (2 ^ 28 <= 2 ^ (7 * j)) by (apply Z.pow_le_mono_r; lia). nia. }
  rewrite Hfin. unfold ret. rewrite shiftl_mul by lia.
  rewrite lor_disjoint by lia. reflexivity.
Qed.

(** The decoding loop reads back what the encoding loop wrote, from any
    shift that is a multiple of seven. *)
Lemma varuint32_loop_ser_decode fs fd : forall x j res rest a,
  (fs <= fd)%nat -> 0 <= j -> 0 <= x < 2 ^ (7 * Z.of_nat (S fs)) ->
  0 <= res < 2 ^ (7 * j) -> x * 2 ^ (7 * j) < 2 ^ 32 ->
  varuint32_loop (S fd) (7 * j) res
    (mkReader (varuint32_loop_ser (S fs) x ++ rest) a)
  = (mkReader rest a, Ok (res + x * 2 ^ (7 * j))).
Proof.
  revert fd. induction fs as [| fs IH]; intros fd x j res rest a Hf Hj Hx Hres Hb.
  - simpl in Hx. rewrite varuint32_loop_ser_small by lia.
    apply varuint32_loop_last; lia.
  - destruct (Z.lt_ge_cases x 128) as [Hsmall | Hbig].
    + rewrite varuint32_loop_ser_small by lia.
      apply varuint32_loop_last; lia.
    + rewrite varuint32_loop_ser_step by lia.
      destruct fd as [| fd]; [lia |].
      rewrite <- app_comm_cons. rewrite varuint32_loop_S.
      unfold bind at 1, read_byte. cbn [input allocations].
      assert (Hm : 0 <= x mod 128 < 128) by (apply Z.mod_pos_bound; lia).
      rewrite lor_128 by exact Hm.
      rewrite land_127, shiftr_7.
      replace ((x mod 128 + 128) mod 128) with (x mod 128)
        by (rewrite <- Z.add_mod_idemp_r by lia; rewrite Z.mod_same by lia;
            rewrite Z.add_0_r, Z.mod_mod by lia; reflexivity).
      replace ((x mod 128 + 128) / 128) with 1
        by (apply (Z.div_unique _ _ _ (x mod 128)); lia).
      cbn [Z.eqb].
      rewrite shiftl_mul by lia.
      rewrite lor_disjoint by lia.
      replace (7 * j + 7) with (7 * (j + 1)) by lia.
      assert (Hq : 0 <= x / 128 < 2 ^ (7 * Z.of_nat (S fs))).
      { split; [apply Z.div_pos; lia|].
        apply Z.div_lt_upper_bound; [lia|].
        replace (7 * Z.of_nat (S (S fs))) with (7 + 7 * Z.of_nat (S fs)) in Hx by lia.
        rewrite Z.pow_add_r in Hx by lia. lia. }
      assert (Hp : 2 ^ (7 * (j + 1)) = 128 * 2 ^ (7 * j))
        by (replace (7 * (j + 1)) with (7 + 7 * j) by lia; rewrite Z.pow_add_r by lia; reflexivity).
      pose proof (Z.div_mod x 128 ltac:(lia)) as Hdm.
      rewrite IH.
      * f_equal. f_equal. rewrite Hp. nia.
      * lia.
      * lia.
      * exact Hq.
      * rewrite Hp. nia.
      * rewrite Hp. nia.
Qed.

Lemma varuint32_roundtrip v rest a :
  0 <= v <= U32_MAX ->
  varuint32_deserialize (mkReader (varuint32_serialize v ++ rest) a)
  = (mkReader rest a, Ok v).
Proof.
  intros Hv. unfold U32_MAX in Hv.
  unfold varuint32_deserialize, varuint32_serialize.
  change 0 with (7 * 0) at 1.
  rewrite (varuint32_loop_ser_decode 4 4 v 0 0 rest a); try (simpl; lia).
  f_equal. f_equal. lia.
Qed.

Lemma varuint32_from_usize_some n z :
  varuint32_from_usize n = Some z -> z = Z.of_nat n /\ 0 <= z <= U32_MAX.
Proof.
  unfold varuint32_from_usize. destruct (Z.leb_spec (Z.of_nat n) U32_MAX);
    intros H'; inversion H'; lia.
Qed.

Lemma read_exact_app l rest a :
  read_exact (Z.of_nat (length l)) (mkReader (l ++ rest) a)
  = (mkReader rest a, Ok l).
Proof.
  unfold read_exact. cbn [input allocations].
  rewrite length_app, Nat2Z.id.
  replace (Z.of_nat (length l) <=? Z.of_nat (length l + length rest)) with true
    by (symmetry; apply Z.leb_le; lia).
  rewrite firstn_app, skipn_app, firstn_all, skipn_all, Nat.sub_diag.
  simpl. rewrite app_nil_r. reflexivity.
Qed.

(* ------------------------------------------------------------------ *)
(** ** Lemmas: strings and index maps *)

Lemma string_roundtrip : roundtrip utf8_valid string_serialize string_deserialize.
Proof.
  intros s bs rest a Hok Hser. unfold string_serialize in Hser.
  destruct (varuint32_from_usize (length s)) as [len |] eqn:Hl; [| discriminate].
  apply varuint32_from_usize_some in Hl as [-> Hr]. inversion Hser; subst bs.
  unfold string_deserialize. rewrite <- app_assoc.
  rewrite (bind_ok _ _ _ _ _ (varuint32_roundtrip _ _ _ Hr)).
  rewrite (bind_ok _ _ _ _ _ (read_exact_app _ _ _)).
  rewrite Hok. reflexivity.
Qed.

Lemma insert_entry_last {T} (k : Z) (v : T) m :
  Forall (fun e => fst e < k) m -> insert_entry k v m = m ++ [(k, v)].
Proof.
  induction m as [| [k' v'] m IH]; intros Hm; [reflexivity |].
  inversion Hm as [| ? ? Hk Hr]; subst. simpl in Hk. cbn [insert_entry].
  replace (k <? k') with false by (symmetry; apply Z.ltb_ge; lia).
  replace (k =? k') with false by (symmetry; apply Z.eqb_neq; lia).
  rewrite IH by exact Hr. reflexivity.
Qed.

Section IndexMapRoundtrip.
Context {T : Type} (ok : T -> bool) (ser : T -> option (list Z))
        (de : Decode T).
Hypothesis Hrt : roundtrip ok ser de.

Lemma deserialize_entries_roundtrip l : forall prev m body rest a,
  entries_ok ok prev l = true -> keys_bounded prev m ->
  serialize_entries ser l = Some body ->
  deserialize_entries de (length l) prev (mkIndexMap m)
    (mkReader (body ++ rest) a)
  = (mkReader rest a, Ok (mkIndexMap (m ++ l))).
Proof.
  induction l as [| [k v] l IH]; intros prev m body rest a Hok Hb Hser.
  - inversion Hser; subst. simpl. rewrite app_nil_r. reflexivity.
  - cbn [serialize_entries] in Hser.
    destruct (ser v) as [vb |] eqn:Hv; [| discriminate].
    destruct (serialize_entries ser l) as [rb |] eqn:Hr; [| discriminate].
    inversion Hser; subst body. clear Hser.
    cbn [entries_ok] in Hok.
    apply andb_true_iff in Hok as [Hok Hl].
    apply andb_true_iff in Hok as [Hok Hvok].
    apply andb_true_iff in Hok as [Hprev Hmax].
    apply Z.leb_le in Hmax.
    assert (Hk0 : 0 <= k)
      by (destruct prev as [p |]; [apply Z.ltb_lt in Hprev | apply Z.leb_le in Hprev];
          [destruct Hb; lia | lia]).
    cbn [length deserialize_entries].
    rewrite <- !app_assoc.
    rewrite (bind_ok _ _ _ _ _ (varuint32_roundtrip k _ _ ltac:(lia))).
    replace (match prev with Some p => k <=? p | None => false end) with false
      by (destruct prev as [p |]; [apply Z.ltb_lt in Hprev; symmetry; apply Z.leb_gt; lia
                                 | reflexivity]).
    rewrite (bind_ok _ _ _ _ _ (Hrt v vb _ a Hvok Hv)).
    unfold index_map_insert. cbn [entries].
    rewrite insert_entry_last.
    + rewrite (IH (Some k) (m ++ [(k, v)]) rb rest a Hl).
      * rewrite <- app_assoc. reflexivity.
      * simpl. split; [lia |].
        apply Forall_app. split; [| constructor; simpl; [lia | constructor]].
        destruct prev as [p |]; simpl in Hb.
        -- apply Z.ltb_lt in Hprev. destruct Hb as [_ Hb].
           eapply Forall_impl; [| exact Hb]. intros e He. cbv beta in *. lia.
        -- subst m. constructor.
      * reflexivity.
    + destruct prev as [p |]; simpl in Hb.
      * apply Z.ltb_lt in Hprev. destruct Hb as [_ Hb].
        eapply Forall_impl; [| exact Hb]. intros e He. cbv beta in *. lia.
      * subst m. constructor.
Qed.

Lemma index_map_roundtrip :
  roundtrip (index_map_ok ok) (index_map_serialize ser)
            (index_map_deserialize de).
Proof.
  intros [l] bs rest a Hok Hser. unfold index_map_serialize in Hser.
  destruct (varuint32_from_usize (index_map_len (mkIndexMap l))) as [len |] eqn:Hl;
    [| discriminate].
  apply varuint32_from_usize_some in Hl as [-> Hr].
  destruct (serialize_entries ser (entries (mkIndexMap l))) as [body |] eqn:Hb;
    [| discriminate].
  inversion Hser; subst bs. clear Hser.
  unfold index_map_deserialize. rewrite <- app_assoc.
  rewrite (bind_ok _ _ _ _ _ (varuint32_roundtrip _ _ _ Hr)).
  unfold index_map_len. cbn [entries]. rewrite Nat2Z.id.
  exact (deserialize_entries_roundtrip l None [] body rest a Hok eq_refl Hb).
Qed.
End IndexMapRoundtrip.

(* ------------------------------------------------------------------ *)
(** ** Lemmas: the sub-sections and the framing *)

Lemma module_roundtrip :
  roundtrip (fun m => utf8_valid (name m)) module_serialize module_deserialize.
Proof.
  intros [n] bs rest a Hok Hser. unfold module_deserialize.
  rewrite (bind_ok _ _ _ _ _ (string_roundtrip n bs rest a Hok Hser)).
  reflexivity.
Qed.

Lemma name_map_roundtrip :
  roundtrip name_map_ok name_map_serialize name_map_deserialize.
Proof. exact (index_map_roundtrip _ _ _ string_roundtrip). Qed.

Lemma function_roundtrip :
  roundtrip (fun f => name_map_ok (names f)) function_serialize
            function_deserialize.
Proof.
  intros [n] bs rest a Hok Hser. unfold function_deserialize.
  rewrite (bind_ok _ _ _ _ _ (name_map_roundtrip n bs rest a Hok Hser)).
  reflexivity.
Qed.

Lemma local_roundtrip :
  roundtrip (fun l => index_map_ok name_map_ok (local_names l))
            local_serialize local_deserialize.
Proof.
  intros [n] bs rest a Hok Hser. unfold local_deserialize.
  rewrite (bind_ok _ _ _ _ _
             (index_map_roundtrip _ _ _ name_map_roundtrip n bs rest a Hok Hser)).
  reflexivity.
Qed.

Lemma name_section_serialize_frame s bs :
  name_section_serialize s = Some bs ->
  exists t p, tag_and_payload s = Some (t, p) /\
    0 <= Z.of_nat (length p) <= U32_MAX /\
    bs = [t] ++ varuint32_serialize (Z.of_nat (length p)) ++ p.
Proof.
  intros H. unfold name_section_serialize in H.
  assert (Htp : forall t p, tag_and_payload s = Some (t, p) ->
             (let? len := varuint32_from_usize (length p) in
              Some (varuint7_serialize t ++ varuint32_serialize len ++ p)) = Some bs ->
             exists t p, tag_and_payload s = Some (t, p) /\
               0 <= Z.of_nat (length p) <= U32_MAX /\
               bs = [t] ++ varuint32_serialize (Z.of_nat (length p)) ++ p).
  { intros t p E1 E2.
    destruct (varuint32_from_usize (length p)) as [len |] eqn:Hl; [| discriminate].
    apply varuint32_from_usize_some in Hl as [-> Hr].
    inversion E2. exists t, p. auto. }
  destruct s as [m | f | l | t p]; cbn [tag_and_payload] in Htp |- *.
  - destruct (module_serialize m) as [b |]; [| discriminate].
    eapply Htp; [reflexivity | exact H].
  - destruct (function_serialize f) as [b |]; [| discriminate].
    eapply Htp; [reflexivity | exact H].
  - destruct (local_serialize l) as [b |]; [| discriminate].
    eapply Htp; [reflexivity | exact H].
  - eapply Htp; [reflexivity | exact H].
Qed.

Lemma varuint7_roundtrip t rest a :
  varuint7_deserialize (mkReader ([t] ++ rest) a) = (mkReader rest a, Ok t).
Proof. reflexivity. Qed.

(** Decoding an encoding gives the value back and leaves the rest of the
    stream; only an [Unparsed] value allocates, its payload's length. *)
Lemma name_section_roundtrip_gen v bs rest a :
  name_section_ok v = true -> unparsed_tag_ok v = true ->
  name_section_serialize v = Some bs ->
  name_section_deserialize (mkReader (bs ++ rest) a)
  = (mkReader rest (a ++ match v with
                          | Unparsed _ p => [Z.of_nat (length p)]
                          | _ => []
                          end), Ok v).
Proof.
  intros Hok Htag Hser.
  destruct (name_section_serialize_frame _ _ Hser) as (t & p & Htp & Hlen & ->).
  unfold name_section_deserialize. rewrite <- !app_assoc.
  destruct v as [m | f | l | t' p']; cbn [tag_and_payload] in Htp.
  - destruct (module_serialize m) as [b |] eqn:Hb; inversion Htp; subst t p.
    rewrite (bind_ok _ _ _ _ _ (varuint7_roundtrip 0 _ _)).
    rewrite (bind_ok _ _ _ _ _ (varuint32_roundtrip _ _ _ Hlen)).
    cbn -[module_deserialize].
    rewrite (bind_ok _ _ _ _ _ (module_roundtrip m b rest a Hok Hb)).
    rewrite app_nil_r. reflexivity.
  - destruct (function_serialize f) as [b |] eqn:Hb; inversion Htp; subst t p.
    rewrite (bind_ok _ _ _ _ _ (varuint7_roundtrip 1 _ _)).
    rewrite (bind_ok _ _ _ _ _ (varuint32_roundtrip _ _ _ Hlen)).
    cbn -[function_deserialize].
    rewrite (bind_ok _ _ _ _ _ (function_roundtrip f b rest a Hok Hb)).
    rewrite app_nil_r. reflexivity.
  - destruct (local_serialize l) as [b |] eqn:Hb; inversion Htp; subst t p.
    rewrite (bind_ok _ _ _ _ _ (varuint7_roundtrip 2 _ _)).
    rewrite (bind_ok _ _ _ _ _ (varuint32_roundtrip _ _ _ Hlen)).
    cbn -[local_deserialize].
    rewrite (bind_ok _ _ _ _ _ (local_roundtrip l b rest a Hok Hb)).
    rewrite app_nil_r. reflexivity.
  - inversion Htp; subst t' p'. cbn [unparsed_tag_ok in_range] in Htag.
    apply andb_true_iff in Htag as [H3 H255].
    apply Z.leb_le in H3. apply Z.leb_le in H255.
    rewrite (bind_ok _ _ _ _ _ (varuint7_roundtrip t _ _)).
    rewrite (bind_ok _ _ _ _ _ (varuint32_roundtrip _ _ _ Hlen)).
    unfold NAME_TYPE_MODULE, NAME_TYPE_FUNCTION, NAME_TYPE_LOCAL.
    replace (t =? 0) with false by (symmetry; apply Z.eqb_neq; lia).
    replace (t =? 1) with false by (symmetry; apply Z.eqb_neq; lia).
    replace (t =? 2) with false by (symmetry; apply Z.eqb_neq; lia).
    unfold bind at 1, vec_zeroed. cbn [input allocations].
    rewrite (bind_ok _ _ _ _ _ (read_exact_app _ _ _)).
    reflexivity.
Qed.

Lemma varuint32_from_usize_ok n :
  Z.of_nat n <= U32_MAX -> varuint32_from_usize n = Some (Z.of_nat n).
Proof.
  intros H. unfold varuint32_from_usize.
  replace (Z.of_nat n <=? U32_MAX) with true by (symmetry; apply Z.leb_le; lia).
  reflexivity.
Qed.

Lemma name_section_serialize_of_frame s t p :
  tag_and_payload s = Some (t, p) -> Z.of_nat (length p) <= U32_MAX ->
  name_section_serialize s
  = Some ([t] ++ varuint32_serialize (Z.of_nat (length p)) ++ p).
Proof.
  intros Htp Hl. unfold name_section_serialize.
  destruct s as [m | f | l | t' p']; cbn [tag_and_payload] in Htp.
  - destruct (module_serialize m); inversion Htp; subst.
    rewrite varuint32_from_usize_ok by exact Hl. reflexivity.
  - destruct (function_serialize f); inversion Htp; subst.
    rewrite varuint32_from_usize_ok by exact Hl. reflexivity.
  - destruct (local_serialize l); inversion Htp; subst.
    rewrite varuint32_from_usize_ok by exact Hl. reflexivity.
  - inversion Htp; subst.
    rewrite varuint32_from_usize_ok by exact Hl. reflexivity.
Qed.

(* ------------------------------------------------------------------ *)
(** ** Lemmas: correctly formed bytes are encodings *)

Lemma wire_string_sound bs s :
  wire_string bs s -> utf8_valid s = true /\ string_serialize s = Some bs.
Proof.
  intros [s' Hv Hl]. split; [exact Hv |].
  unfold string_serialize. rewrite varuint32_from_usize_ok by exact Hl.
  reflexivity.
Qed.

Section WireSound.
Context {T : Type} (wire_value : list Z -> T -> Prop) (ok : T -> bool)
        (ser : T -> option (list Z)).
Hypothesis Hvalue : forall vb v, wire_value vb v -> ok v = true /\ ser v = Some vb.

Lemma wire_entries_sound prev bs l :
  wire_entries wire_value prev bs l ->
  entries_ok ok prev l = true /\ serialize_entries ser l = Some bs.
Proof.
  induction 1 as [prev | prev k vb v rb r Hprev Hmax Hv Hr [IHok IHser]].
  - split; reflexivity.
  - destruct (Hvalue _ _ Hv) as [Hok Hs]. cbn [entries_ok serialize_entries].
    rewrite Hs, IHser, Hok, IHok.
    replace (k <=? U32_MAX) with true by (symmetry; apply Z.leb_le; lia).
    split; [| reflexivity].
    destruct prev as [p |].
    + replace (p <? k) with true by (symmetry; apply Z.ltb_lt; lia). reflexivity.
    + replace (0 <=? k) with true by (symmetry; apply Z.leb_le; lia). reflexivity.
Qed.

Lemma wire_index_map_sound bs m :
  wire_index_map wire_value bs m ->
  index_map_ok ok m = true /\ index_map_serialize ser m = Some bs.
Proof.
  intros [bs' l He Hl].
  destruct (wire_entries_sound _ _ _ He) as [Hok Hs].
  split; [exact Hok |].
  unfold index_map_serialize, index_map_len. cbn [entries].
  rewrite varuint32_from_usize_ok by exact Hl. rewrite Hs. reflexivity.
Qed.
End WireSound.

Lemma wire_name_map_sound bs m :
  wire_name_map bs m -> name_map_ok m = true /\ name_map_serialize m = Some bs.
Proof. apply wire_index_map_sound. exact wire_string_sound. Qed.

Lemma wire_payload_sound t p :
  wire_payload t p ->
  exists v, tag_and_payload v = Some (t, p) /\ name_section_ok v = true /\
            unparsed_tag_ok v = true.
Proof.
  intros [p' s Hs | p' m Hm | p' m Hm | t' p' Ht Hp].
  - apply wire_string_sound in Hs as [Hok Hser].
    exists (Module (mkModuleNameSection s)). cbn. unfold module_serialize. cbn.
    rewrite Hser. auto.
  - apply wire_name_map_sound in Hm as [Hok Hser].
    exists (Function (mkFunctionNameSection m)). cbn. unfold function_serialize. cbn.
    rewrite Hser. auto.
  - apply (wire_index_map_sound _ _ _ wire_name_map_sound) in Hm as [Hok Hser].
    exists (Local (mkLocalNameSection m)). cbn. unfold local_serialize. cbn.
    rewrite Hser. auto.
  - exists (Unparsed t' p'). cbn [tag_and_payload name_section_ok unparsed_tag_ok].
    rewrite Hp. unfold in_range.
    replace (0 <=? t') with true by (symmetry; apply Z.leb_le; lia).
    replace (t' <=? 255) with true by (symmetry; apply Z.leb_le; lia).
    replace (3 <=? t') with true by (symmetry; apply Z.leb_le; lia).
    auto.
Qed.

(* ------------------------------------------------------------------ *)
(** ** Lemmas: the framing on hand-built inputs *)

Lemma decode_unknown_tag t f n x a :
  3 <= t -> varuint32_field f n ->
  name_section_deserialize (mkReader ([t] ++ f ++ x) a)
  = bind (read_exact n) (fun p => ret (Unparsed t p)) (mkReader x (a ++ [n])).
Proof.
  intros Ht Hf. unfold name_section_deserialize.
  rewrite (bind_ok _ _ _ _ _ (varuint7_roundtrip t _ _)).
  rewrite (bind_ok _ _ _ _ _ (Hf x a)).
  unfold NAME_TYPE_MODULE, NAME_TYPE_FUNCTION, NAME_TYPE_LOCAL.
  replace (t =? 0) with false by (symmetry; apply Z.eqb_neq; lia).
  replace (t =? 1) with false by (symmetry; apply Z.eqb_neq; lia).
  replace (t =? 2) with false by (symmetry; apply Z.eqb_neq; lia).
  reflexivity.
Qed.

Lemma varuint32_field_serialize n :
  0 <= n <= U32_MAX -> varuint32_field (varuint32_serialize n) n.
Proof. intros Hn x a. apply varuint32_roundtrip. exact Hn. Qed.

Lemma preserves_ret {A} (v : A) : preserves_allocations (ret v).
Proof. intros r. reflexivity. Qed.

Lemma preserves_fail {A} e : preserves_allocations (@fail A e).
Proof. intros r. reflexivity. Qed.

Lemma preserves_bind {A B} (m : Decode A) (f : A -> Decode B) :
  preserves_allocations m -> (forall v, preserves_allocations (f v)) ->
  preserves_allocations (bind m f).
Proof.
  intros Hm Hf r. unfold bind. specialize (Hm r).
  destruct (m r) as [r' [v | e]]; simpl in *.
  - rewrite Hf. exact Hm.
  - exact Hm.
Qed.

Lemma preserves_read_byte : preserves_allocations read_byte.
Proof. intros r. unfold read_byte. destruct (input r); reflexivity. Qed.

Lemma preserves_read_exact n : preserves_allocations (read_exact n).
Proof. intros r. unfold read_exact. destruct (_ <=? _); reflexivity. Qed.

Create HintDb allocs.
#[local] Hint Resolve preserves_ret preserves_fail preserves_bind
  preserves_read_byte preserves_read_exact : allocs.

Ltac preserves :=
  repeat first
    [ solve [eauto with allocs]
    | apply preserves_bind; [| intro]
    | match goal with |- preserves_allocations (if ?b then _ else _) =>
        destruct b end ].

Lemma preserves_varuint32_loop fuel : forall shift res,
  preserves_allocations (varuint32_loop fuel shift res).
Proof.
  induction fuel as [| fuel IH]; intros shift res; simpl; preserves.
Qed.
#[local] Hint Resolve preserves_varuint32_loop : allocs.

Lemma preserves_varuint32 : preserves_allocations varuint32_deserialize.
Proof. unfold varuint32_deserialize. eauto with allocs. Qed.
#[local] Hint Resolve preserves_varuint32 : allocs.

Lemma preserves_varuint7 : preserves_allocations varuint7_deserialize.
Proof. unfold varuint7_deserialize. preserves. Qed.

Lemma preserves_string : preserves_allocations string_deserialize.
Proof. unfold string_deserialize. preserves. Qed.
#[local] Hint Resolve preserves_string : allocs.

Lemma preserves_entries {T} (de : Decode T) :
  preserves_allocations de ->
  forall n prev m, preserves_allocations (deserialize_entries de n prev m).
Proof.
  intros Hde n. induction n as [| n IH]; intros prev m; simpl; preserves.
Qed.

Lemma preserves_index_map {T} (de : Decode T) :
  preserves_allocations de -> preserves_allocations (index_map_deserialize de).
Proof.
  intros Hde. unfold index_map_deserialize. preserves. apply preserves_entries, Hde.
Qed.
#[local] Hint Resolve preserves_index_map : allocs.

Lemma preserves_module : preserves_allocations module_deserialize.
Proof. unfold module_deserialize. preserves. Qed.

Lemma preserves_function : preserves_allocations function_deserialize.
Proof.
  unfold function_deserialize, name_map_deserialize. preserves.
Qed.

Lemma preserves_local : preserves_allocations local_deserialize.
Proof.
  unfold local_deserialize, name_map_deserialize. preserves.
Qed.

(* ================================================================== *)
(** * The claims *)

(** C1, as stated: refuted.  [Unparsed] can be built with a known tag;
    [Unparsed { name_type: 0, name_payload: vec![0] }] is written as
    [0, 1, 0], which reads back as an empty module name, not as itself. *)
Lemma C1_unparsed_known_tag_counterexample :
  name_section_serialize (Unparsed 0 [0]) = Some [0; 1; 0] /\
  decode_value [0; 1; 0] = Some (Module (mkModuleNameSection [])) /\
  decode_value [0; 1; 0] <> Some (Unparsed 0 [0]).
Proof. split; [reflexivity | split; [reflexivity | discriminate]]. Qed.

(** C1 (amended): every value a Rust program can build whose encoding
    does not panic, and which, if [Unparsed], carries a tag in [3..255],
    reads back as itself from its encoding. *)
Theorem name_section_roundtrip v bs :
  name_section_ok v = true -> unparsed_tag_ok v = true ->
  name_section_serialize v = Some bs -> decode_value bs = Some v.
Proof.
  intros Hok Htag Hser. unfold decode_value, decode.
  rewrite <- (app_nil_r bs).
  rewrite (name_section_roundtrip_gen v bs [] [] Hok Htag Hser). reflexivity.
Qed.

Lemma name_section_roundtrip_witness :
  let v := Local (mkLocalNameSection
                    (index_map_insert 0
                       (index_map_insert 0 [109; 115; 103] index_map_empty)
                       index_map_empty)) in
  name_section_serialize v = Some [2; 8; 1; 0; 1; 0; 3; 109; 115; 103] /\
  decode_value [2; 8; 1; 0; 1; 0; 3; 109; 115; 103] = Some v.
Proof.
  intros v. split; [reflexivity |].
  apply name_section_roundtrip; reflexivity.
Defined.

(** C2, as stated: refuted.  [120, 0x81, 0x00, 7] declares, in a padded
    but valid LEB128 field, a payload of one byte, and has one; it decodes
    to [Unparsed 120 [7]], which is written back as [120, 1, 7]. *)
Lemma C2_padded_length_counterexample :
  varuint32_deserialize (mkReader [129; 0; 7] []) = (mkReader [7] [], Ok 1) /\
  decode [120; 129; 0; 7] = (mkReader [] [1], Ok (Unparsed 120 [7])) /\
  name_section_serialize (Unparsed 120 [7]) = Some [120; 1; 7].
Proof. repeat split; reflexivity. Qed.

(** C2 (amended): bytes in the wire format of the spec with every varint
    in its shortest form (and a tag below 128) decode, consuming all of
    them, to a value whose encoding is exactly those bytes. *)
Theorem wire_section_roundtrip bs :
  wire_section bs ->
  exists v r, decode bs = (r, Ok v) /\ input r = [] /\
              name_section_serialize v = Some bs.
Proof.
  intros (t & p & Hp & Hl & ->).
  destruct (wire_payload_sound _ _ Hp) as (v & Htp & Hok & Htag).
  pose proof (name_section_serialize_of_frame _ _ _ Htp Hl) as Hser.
  exists v. eexists. unfold decode.
  pose proof (name_section_roundtrip_gen v _ [] [] Hok Htag Hser) as E.
  rewrite app_nil_r in E. rewrite E.
  split; [reflexivity | split; [reflexivity | exact Hser]].
Qed.

Lemma wire_section_roundtrip_witness :
  wire_section [1; 7; 1; 0; 4; 109; 97; 105; 110] /\
  exists v r, decode [1; 7; 1; 0; 4; 109; 97; 105; 110] = (r, Ok v) /\
    input r = [] /\
    name_section_serialize v = Some [1; 7; 1; 0; 4; 109; 97; 105; 110].
Proof.
  assert (H : wire_section [1; 7; 1; 0; 4; 109; 97; 105; 110]).
  { exists 1, [1; 0; 4; 109; 97; 105; 110]. split; [| split; [vm_compute; discriminate | reflexivity]].
    apply (WireFunction _ (mkIndexMap [(0, [109; 97; 105; 110])])).
    apply (WireIndexMap _ [0; 4; 109; 97; 105; 110] [(0, [109; 97; 105; 110])]).
    - apply (WireCons _ None 0 [4; 109; 97; 105; 110] _ [] []).
      + lia.
      + vm_compute. discriminate.
      + apply (WireString [109; 97; 105; 110]); [reflexivity | vm_compute; discriminate].
      + constructor.
    - vm_compute. discriminate. }
  split; [exact H | apply wire_section_roundtrip; exact H].
Defined.

(** C3, as stated: refuted.  A buffer with bytes after the declared
    payload decodes, but only the consumed prefix is written back. *)
Lemma C3_unknown_tag_counterexample :
  decode [120; 1; 7; 9] = (mkReader [9] [1], Ok (Unparsed 120 [7])) /\
  name_section_serialize (Unparsed 120 [7]) = Some [120; 1; 7] /\
  name_section_serialize (Unparsed 120 [7]) <> Some [120; 1; 7; 9].
Proof. split; [reflexivity | split; [reflexivity | discriminate]]. Qed.

(** C3 (amended): a buffer made of a tag in [3..255], a payload length
    [n] in shortest LEB128 form, [n] payload bytes and anything after them
    decodes, without error, to [Unparsed] with that tag and exactly those
    [n] bytes, leaving the rest unread; writing that value back gives the
    consumed prefix of the buffer. *)
Theorem unparsed_decode_exact t p rest :
  3 <= t <= 255 -> Z.of_nat (length p) <= U32_MAX ->
  decode ([t] ++ varuint32_serialize (Z.of_nat (length p)) ++ p ++ rest)
  = (mkReader rest [Z.of_nat (length p)], Ok (Unparsed t p)) /\
  name_section_serialize (Unparsed t p)
  = Some ([t] ++ varuint32_serialize (Z.of_nat (length p)) ++ p).
Proof.
  intros Ht Hl. split.
  - unfold decode.
    rewrite (decode_unknown_tag t _ _ (p ++ rest) _ ltac:(lia)
               (varuint32_field_serialize (Z.of_nat (length p)) ltac:(lia))).
    rewrite (bind_ok _ _ _ _ _ (read_exact_app _ _ _)). reflexivity.
  - apply name_section_serialize_of_frame; [reflexivity | exact Hl].
Qed.

Lemma unparsed_decode_exact_witness :
  (3 <= 200 <= 255 /\ Z.of_nat (length [0; 1; 2]) <= U32_MAX) /\
  decode ([200] ++ varuint32_serialize 3 ++ [0; 1; 2] ++ [9])
  = (mkReader [9] [3], Ok (Unparsed 200 [0; 1; 2])) /\
  name_section_serialize (Unparsed 200 [0; 1; 2])
  = Some ([200] ++ varuint32_serialize 3 ++ [0; 1; 2]).
Proof.
  split; [split; [lia | vm_compute; discriminate] |].
  exact (unparsed_decode_exact 200 [0; 1; 2] [9] ltac:(lia)
           ltac:(vm_compute; discriminate)).
Defined.

(** C5: with a known tag, the declared payload length is read and then
    ignored: two inputs that differ only in that field (any two complete
    [VarUint32] fields) decode identically, value or error, and leave the
    stream in the same place. *)
Theorem known_tag_ignores_length t f1 n1 f2 n2 rest :
  (t = 0 \/ t = 1 \/ t = 2) ->
  varuint32_field f1 n1 -> varuint32_field f2 n2 ->
  decode ([t] ++ f1 ++ rest) = decode ([t] ++ f2 ++ rest).
Proof.
  intros Ht Hf1 Hf2. unfold decode, name_section_deserialize.
  rewrite (bind_ok _ _ _ _ _ (varuint7_roundtrip t _ _)).
  rewrite (bind_ok _ _ _ _ _ (varuint7_roundtrip t _ _)).
  rewrite (bind_ok _ _ _ _ _ (Hf1 rest [])).
  rewrite (bind_ok _ _ _ _ _ (Hf2 rest [])).
  destruct Ht as [-> | [-> | ->]]; reflexivity.
Qed.

Lemma known_tag_ignores_length_witness :
  varuint32_field [5] 5 /\ varuint32_field [129; 0] 1 /\
  decode ([0] ++ [5] ++ [2; 104; 105]) = decode ([0] ++ [129; 0] ++ [2; 104; 105]).
Proof.
  assert (H1 : varuint32_field [5] 5) by (intros x a; reflexivity).
  assert (H2 : varuint32_field [129; 0] 1) by (intros x a; reflexivity).
  split; [exact H1 | split; [exact H2 |]].
  exact (known_tag_ignores_length 0 [5] 5 [129; 0] 1 [2; 104; 105]
           (or_introl eq_refl) H1 H2).
Defined.

(** C6, as stated: refuted.  With the module tag, a declared length of
    100 followed by a single byte still decodes, to an empty module
    name. *)
Lemma C6_known_tag_truncated_counterexample :
  varuint32_deserialize (mkReader [100; 0] []) = (mkReader [0] [], Ok 100) /\
  decode [0; 100; 0] = (mkReader [] [], Ok (Module (mkModuleNameSection []))).
Proof. split; reflexivity. Qed.

(** C6 (amended): for a tag byte other than 0, 1, 2, a declared payload
    length larger than the bytes left after the length field makes
    decoding fail with a truncated-input error. *)
Theorem unknown_tag_truncated t f n x :
  3 <= t <= 255 -> varuint32_field f n -> Z.of_nat (length x) < n ->
  snd (decode ([t] ++ f ++ x)) = Err UnexpectedEof.
Proof.
  intros Ht Hf Hx. unfold decode.
  rewrite (decode_unknown_tag t f n x [] ltac:(lia) Hf).
  unfold bind, read_exact. cbn [input allocations].
  replace (n <=? Z.of_nat (length x)) with false by (symmetry; apply Z.leb_gt; lia).
  reflexivity.
Qed.

Lemma unknown_tag_truncated_witness :
  (3 <= 200 <= 255 /\ varuint32_field [10] 10 /\ Z.of_nat (length [1; 2]) < 10) /\
  snd (decode ([200] ++ [10] ++ [1; 2])) = Err UnexpectedEof.
Proof.
  assert (Hf : varuint32_field [10] 10) by (intros x a; reflexivity).
  split; [split; [lia | split; [exact Hf | simpl; lia]] |].
  exact (unknown_tag_truncated 200 [10] 10 [1; 2] ltac:(lia) Hf ltac:(simpl; lia)).
Defined.

(** C9, as stated: refuted.  A section with tag 120 declaring 1000
    payload bytes and holding none allocates the 1000-byte buffer, then
    fails. *)
Lemma C9_allocation_before_read_counterexample :
  decode [120; 232; 7] = (mkReader [] [1000], Err UnexpectedEof).
Proof. reflexivity. Qed.

(** C9 (amended): with a tag byte [t] other than 0, 1, 2, the decoder
    allocates a payload buffer of exactly the declared length [n] before
    reading the payload, whatever the stream holds after the length
    field; when fewer than [n] bytes are left, the read then fails with a
    truncated-input error, after the allocation.  With tag 0, 1 or 2 it
    allocates no payload buffer. *)
Theorem payload_allocation t f n x :
  0 <= t <= 255 -> varuint32_field f n ->
  allocations (fst (decode ([t] ++ f ++ x)))
  = (if in_range 3 255 t then [n] else []) /\
  (in_range 3 255 t = true -> Z.of_nat (length x) < n ->
   decode ([t] ++ f ++ x) = (mkReader [] [n], Err UnexpectedEof)).
Proof.
  intros Ht Hf. unfold decode.
  destruct (in_range 3 255 t) eqn:Hr.
  - unfold in_range in Hr. apply andb_true_iff in Hr as [H3 H255].
    apply Z.leb_le in H3.
    rewrite (decode_unknown_tag t f n x [] H3 Hf). split.
    + rewrite (preserves_bind _ _ (preserves_read_exact n) (fun p => preserves_ret _)).
      reflexivity.
    + intros _ Hx. unfold bind, read_exact. cbn [input allocations app].
      replace (n <=? Z.of_nat (length x)) with false
        by (symmetry; apply Z.leb_gt; lia).
      reflexivity.
  - split; [| discriminate].
    unfold name_section_deserialize.
    rewrite (bind_ok _ _ _ _ _ (varuint7_roundtrip t _ _)).
    rewrite (bind_ok _ _ _ _ _ (Hf x [])).
    unfold in_range in Hr.
    assert (Ht3 : t = 0 \/ t = 1 \/ t = 2).
    { destruct (Z.leb_spec 3 t); destruct (Z.leb_spec t 255); simpl in Hr;
        try discriminate; lia. }
    destruct Ht3 as [-> | [-> | ->]]; cbn -[module_deserialize function_deserialize local_deserialize].
    + apply (preserves_bind _ _ preserves_module (fun _ => preserves_ret _)).
    + apply (preserves_bind _ _ preserves_function (fun _ => preserves_ret _)).
    + apply (preserves_bind _ _ preserves_local (fun _ => preserves_ret _)).
Qed.

Lemma payload_allocation_witness :
  (0 <= 200 <= 255 /\ varuint32_field [232; 7] 1000) /\
  (in_range 3 255 200 = true /\ Z.of_nat (length (@nil Z)) < 1000) /\
  allocations (fst (decode ([200] ++ [232; 7] ++ []))) = [1000] /\
  decode ([200] ++ [232; 7] ++ []) = (mkReader [] [1000], Err UnexpectedEof).
Proof.
  assert (Hf : varuint32_field [232; 7] 1000) by (intros x a; reflexivity).
  split; [split; [lia | exact Hf] |].
  split; [split; [reflexivity | simpl; lia] |].
  destruct (payload_allocation 200 [232; 7] 1000 [] ltac:(lia) Hf) as [Ha Hd].
  split; [exact Ha | exact (Hd eq_refl ltac:(simpl; lia))].
Defined.

(* ------------------------------------------------------------------ *)
(** ** Lemmas: insertion into an [IndexMap] *)

Lemma insert_entry_ok {T} (ok : T -> bool) k v l : forall prev,
  entries_ok ok prev l = true -> above prev (k, v) -> k <= U32_MAX ->
  ok v = true -> entries_ok ok prev (insert_entry k v l) = true.
Proof.
  induction l as [| [k' v'] r IH]; intros prev Hl Hp Hk Hv; unfold above in Hp; cbn [fst] in Hp.
  - cbn [insert_entry entries_ok]. rewrite Hv.
    replace (k <=? U32_MAX) with true by (symmetry; apply Z.leb_le; lia).
    destruct prev as [p |].
    + replace (p <? k) with true by (symmetry; apply Z.ltb_lt; lia). reflexivity.
    + replace (0 <=? k) with true by (symmetry; apply Z.leb_le; lia). reflexivity.
  - cbn [entries_ok] in Hl.
    apply andb_true_iff in Hl as [Hl Hr]. apply andb_true_iff in Hl as [Hl Hv'].
    apply andb_true_iff in Hl as [Hprev Hmax'].
    assert (Hhead : (match prev with Some p => p <? k | None => 0 <=? k end) = true).
    { destruct prev as [p |]; [apply Z.ltb_lt | apply Z.leb_le]; lia. }
    assert (Hkm : (k <=? U32_MAX) = true) by (apply Z.leb_le; lia).
    cbn [insert_entry].
    destruct (Z.ltb_spec k k') as [Hlt | Hge].
    + cbn [entries_ok]. rewrite Hhead, Hkm, Hv, Hmax', Hv', Hr.
      replace (k <? k') with true by (symmetry; apply Z.ltb_lt; lia). reflexivity.
    + destruct (Z.eqb_spec k k') as [-> | Hne].
      * cbn [entries_ok]. rewrite Hprev, Hmax', Hv, Hr. reflexivity.
      * cbn [entries_ok]. rewrite Hprev, Hmax', Hv'. cbn.
        apply IH; [exact Hr | unfold above; simpl; lia | exact Hk | exact Hv].
Qed.

Lemma insert_entry_find {T} k (v : T) l x :
  find (fun e => fst e =? x) (insert_entry k v l)
  = if k =? x then Some (k, v) else find (fun e => fst e =? x) l.
Proof.
  induction l as [| [k' v'] r IH]; [reflexivity |].
  cbn [insert_entry].
  destruct (Z.ltb_spec k k') as [Hlt | Hge]; [reflexivity |].
  destruct (Z.eqb_spec k k') as [-> | Hne].
  - cbn [find fst]. destruct (k' =? x); reflexivity.
  - cbn [find fst]. rewrite IH.
    destruct (Z.eqb_spec k' x) as [-> | Hx].
    + replace (k =? x) with false by (symmetry; apply Z.eqb_neq; lia). reflexivity.
    + reflexivity.
Qed.

Lemma index_map_get_insert {T} k (v : T) m x :
  index_map_get x (index_map_insert k v m)
  = if k =? x then Some v else index_map_get x m.
Proof.
  unfold index_map_get, index_map_insert. cbn [entries].
  rewrite insert_entry_find. destruct (k =? x); reflexivity.
Qed.

Lemma index_map_get_insert_all {T} (ins : list (Z * T)) x : forall m acc,
  index_map_get x m = acc ->
  index_map_get x (insert_all ins m)
  = fold_left (fun acc e => if fst e =? x then Some (snd e) else acc) ins acc.
Proof.
  induction ins as [| [k v] ins IH]; intros m acc Hm; [exact Hm |].
  cbn [insert_all fold_left fst snd]. apply IH.
  rewrite index_map_get_insert, Hm. reflexivity.
Qed.

Lemma insert_entry_keys {T} k (v : T) l x :
  In x (map fst (insert_entry k v l)) <-> x = k \/ In x (map fst l).
Proof.
  induction l as [| [k' v'] r IH]; cbn; [firstorder congruence |].
  destruct (Z.ltb_spec k k'); cbn; [firstorder congruence |].
  destruct (Z.eqb_spec k k') as [-> | Hne]; cbn; [firstorder congruence |].
  rewrite IH. firstorder congruence.
Qed.

Lemma insert_all_ok {T} (ins : list (Z * T)) : forall m,
  Forall (fun e => 0 <= fst e <= U32_MAX) ins ->
  entries_ok (fun _ => true) None (entries m) = true ->
  entries_ok (fun _ => true) None (entries (insert_all ins m)) = true.
Proof.
  induction ins as [| [k v] ins IH]; intros m Hins Hm; [exact Hm |].
  inversion Hins as [| ? ? Hk Hr]; subst. cbn [fst] in Hk.
  cbn [insert_all fold_left fst snd]. apply IH; [exact Hr |].
  unfold index_map_insert. cbn [entries].
  apply insert_entry_ok; [exact Hm | unfold above; simpl; lia | lia | reflexivity].
Qed.

Lemma insert_all_keys {T} (ins : list (Z * T)) : forall m x,
  In x (map fst (entries (insert_all ins m))) <->
  In x (map fst ins) \/ In x (map fst (entries m)).
Proof.
  induction ins as [| [k v] ins IH]; intros m x; unfold insert_all in *;
    cbn [fold_left map fst snd In]; [tauto |].
  rewrite IH. unfold index_map_insert. cbn [entries].
  rewrite insert_entry_keys. firstorder congruence.
Qed.

Lemma entries_ok_sorted {T} (ok : T -> bool) l : forall prev,
  entries_ok ok prev l = true ->
  Forall (above prev) l /\ StronglySorted (fun a b => fst a < fst b) l.
Proof.
  induction l as [| [k v] r IH]; intros prev H; [split; constructor |].
  cbn [entries_ok] in H.
  apply andb_true_iff in H as [H Hr]. apply andb_true_iff in H as [H _].
  apply andb_true_iff in H as [Hp _].
  destruct (IH (Some k) Hr) as [Habove Hsorted].
  assert (Hk : above prev (k, v))
    by (destruct prev as [p |]; unfold above; simpl;
        [apply Z.ltb_lt in Hp | apply Z.leb_le in Hp]; lia).
  split.
  - constructor; [exact Hk |].
    eapply Forall_impl; [| exact Habove].
    intros [k' v'] Ha. unfold above in Ha, Hk |- *. simpl in *.
    destruct prev; lia.
  - constructor; [exact Hsorted |].
    eapply Forall_impl; [| exact Habove]. intros [k' v'] Ha. exact Ha.
Qed.

Lemma sorted_keys_nodup {T} (l : list (Z * T)) :
  StronglySorted (fun a b => fst a < fst b) l -> NoDup (map fst l).
Proof.
  induction 1 as [| [k v] r Hs IH Hall]; cbn; constructor; [| exact IH].
  intros Hin. apply in_map_iff in Hin as [[k' v'] [Heq Hin]]. cbn in Heq. subst k'.
  rewrite Forall_forall in Hall. specialize (Hall _ Hin). cbn in Hall. lia.
Qed.

(* ------------------------------------------------------------------ *)
(** ** The claims on the encoder and on [IndexMap] *)

(** C4: the encoding of a value is its tag as one byte (0 for [Module],
    1 for [Function], 2 for [Local], the stored [name_type] for
    [Unparsed]), then the payload's length as a [VarUint32], then the
    payload, which for a known variant is the sub-section's own encoding
    into a fresh buffer and for [Unparsed] the stored bytes; the encoding
    fails (panics) exactly when the payload length exceeds [u32]. *)
Theorem name_section_serialize_layout v out :
  name_section_serialize v = Some out <->
  exists tag payload,
    match v with
    | Module m => tag = 0 /\ module_serialize m = Some payload
    | Function f => tag = 1 /\ function_serialize f = Some payload
    | Local l => tag = 2 /\ local_serialize l = Some payload
    | Unparsed t p => tag = t /\ payload = p
    end /\
    Z.of_nat (length payload) <= U32_MAX /\
    out = varuint7_serialize tag
          ++ varuint32_serialize (Z.of_nat (length payload)) ++ payload.
Proof.
  split.
  - intros H. destruct (name_section_serialize_frame _ _ H) as (t & p & Htp & Hl & ->).
    exists t, p. split; [| split; [lia | reflexivity]].
    destruct v as [m | f | l | t' p']; cbn [tag_and_payload] in Htp.
    + destruct (module_serialize m); inversion Htp; subst. auto.
    + destruct (function_serialize f); inversion Htp; subst. auto.
    + destruct (local_serialize l); inversion Htp; subst. auto.
    + inversion Htp; subst. auto.
  - intros (t & p & Hv & Hl & ->).
    apply name_section_serialize_of_frame; [| exact Hl].
    destruct v as [m | f | l | t' p']; cbn [tag_and_payload];
      destruct Hv as [-> Hp]; try rewrite Hp; subst; reflexivity.
Qed.

(** C10: in every encoding the payload length field is a complete
    [VarUint32] whose value is the number of bytes after it. *)
Theorem serialize_length_field_consistent v out :
  name_section_serialize v = Some out ->
  exists tag field payload,
    out = [tag] ++ field ++ payload /\
    varuint32_field field (Z.of_nat (length payload)).
Proof.
  intros H. destruct (name_section_serialize_frame _ _ H) as (t & p & _ & Hl & ->).
  exists t, (varuint32_serialize (Z.of_nat (length p))), p.
  split; [reflexivity |]. apply varuint32_field_serialize. exact Hl.
Qed.

Lemma serialize_length_field_consistent_witness :
  name_section_serialize (Module (mkModuleNameSection [109; 121; 95; 109; 111; 100]))
  = Some [0; 7; 6; 109; 121; 95; 109; 111; 100] /\
  exists tag field payload,
    [0; 7; 6; 109; 121; 95; 109; 111; 100] = [tag] ++ field ++ payload /\
    varuint32_field field (Z.of_nat (length payload)).
Proof.
  split; [reflexivity |].
  apply (serialize_length_field_consistent
           (Module (mkModuleNameSection [109; 121; 95; 109; 111; 100]))).
  reflexivity.
Defined.

(** C7: a map built by insertions in any order, with [u32] indices, is
    serialized as its entry count followed by its entries, in the order
    the encoder visits them, and that order is strictly ascending by
    index.  [name_map_serialize] and the outer map of [local_serialize]
    are both [index_map_serialize] (over strings and over name maps), so
    this covers direct and nested maps. *)
Theorem insertions_serialize_ascending {T} (ser : T -> option (list Z))
    (ins : list (Z * T)) out :
  Forall (fun e => 0 <= fst e <= U32_MAX) ins ->
  index_map_serialize ser (insert_all ins index_map_empty) = Some out ->
  exists es body,
    entries (insert_all ins index_map_empty) = es /\
    StronglySorted (fun a b => fst a < fst b) es /\
    serialize_entries ser es = Some body /\
    out = varuint32_serialize (Z.of_nat (length es)) ++ body.
Proof.
  intros Hins Hser.
  pose proof (insert_all_ok ins index_map_empty Hins eq_refl) as Hok.
  destruct (entries_ok_sorted _ _ _ Hok) as [_ Hsorted].
  unfold index_map_serialize, index_map_len in Hser.
  destruct (varuint32_from_usize _) as [len |] eqn:Hl; [| discriminate].
  apply varuint32_from_usize_some in Hl as [-> _].
  destruct (serialize_entries ser _) as [body |] eqn:Hb; [| discriminate].
  inversion Hser; subst out.
  exists (entries (insert_all ins index_map_empty)), body. auto.
Qed.

Lemma insertions_serialize_ascending_witness :
  Forall (fun e => 0 <= fst e <= U32_MAX) [(5, [97]); (0, [98])] /\
  name_map_serialize (insert_all [(5, [97]); (0, [98])] index_map_empty)
  = Some [2; 0; 1; 98; 5; 1; 97] /\
  exists es body,
    entries (insert_all [(5, [97]); (0, [98])] index_map_empty) = es /\
    StronglySorted (fun a b => fst a < fst b) es /\
    serialize_entries string_serialize es = Some body /\
    [2; 0; 1; 98; 5; 1; 97] = varuint32_serialize (Z.of_nat (length es)) ++ body.
Proof.
  assert (Hf : Forall (fun e => 0 <= fst e <= U32_MAX) [(5, [97]); (0, [98])]).
  { repeat constructor; simpl; unfold U32_MAX; lia. }
  split; [exact Hf | split; [reflexivity |]].
  exact (insertions_serialize_ascending string_serialize _ _ Hf eq_refl).
Defined.

(** C8: inserting under an index already present replaces its value:
    the map, and so the serialized entry count, has one entry per
    distinct inserted index, and each index holds the value inserted
    last under it. *)
Theorem insert_replaces {T} (ser : T -> option (list Z)) (ins : list (Z * T)) out :
  Forall (fun e => 0 <= fst e <= U32_MAX) ins ->
  index_map_serialize ser (insert_all ins index_map_empty) = Some out ->
  index_map_len (insert_all ins index_map_empty)
    = length (nodup Z.eq_dec (map fst ins)) /\
  (exists body,
     out = varuint32_serialize (Z.of_nat (length (nodup Z.eq_dec (map fst ins))))
           ++ body) /\
  (forall k, index_map_get k (insert_all ins index_map_empty) = last_inserted k ins).
Proof.
  intros Hins Hser.
  pose proof (insert_all_ok ins index_map_empty Hins eq_refl) as Hok.
  destruct (entries_ok_sorted _ _ _ Hok) as [_ Hsorted].
  assert (Hlen : index_map_len (insert_all ins index_map_empty)
                 = length (nodup Z.eq_dec (map fst ins))).
  { unfold index_map_len. rewrite <- (length_map fst).
    apply Nat.le_antisymm; apply NoDup_incl_length.
    - apply sorted_keys_nodup. exact Hsorted.
    - intros x Hx. apply nodup_In. apply insert_all_keys in Hx.
      destruct Hx as [Hx | []]. exact Hx.
    - apply NoDup_nodup.
    - intros x Hx. apply nodup_In in Hx. apply insert_all_keys. left. exact Hx. }
  split; [exact Hlen | split].
  - unfold index_map_serialize in Hser. rewrite Hlen in Hser.
    destruct (varuint32_from_usize _) as [len |] eqn:Hl; [| discriminate].
    apply varuint32_from_usize_some in Hl as [-> _].
    destruct (serialize_entries ser _) as [body |]; [| discriminate].
    inversion Hser. eauto.
  - intros k. unfold last_inserted.
    apply index_map_get_insert_all. reflexivity.
Qed.

Lemma insert_replaces_witness :
  Forall (fun e => 0 <= fst e <= U32_MAX) [(3, [97]); (3, [98])] /\
  name_map_serialize (insert_all [(3, [97]); (3, [98])] index_map_empty)
  = Some [1; 3; 1; 98] /\
  index_map_len (insert_all [(3, [97]); (3, [98])] index_map_empty)
    = length (nodup Z.eq_dec (map fst [(3, [97]); (3, [98])])) /\
  (exists body, [1; 3; 1; 98] = varuint32_serialize
     (Z.of_nat (length (nodup Z.eq_dec (map fst [(3, [97]); (3, [98])])))) ++ body) /\
  (forall k, index_map_get k (insert_all [(3, [97]); (3, [98])] index_map_empty)
             = last_inserted k [(3, [97]); (3, [98])]).
Proof.
  assert (Hf : Forall (fun e => 0 <= fst e <= U32_MAX) [(3, [97]); (3, [98])]).
  { repeat constructor; simpl; unfold U32_MAX; lia. }
  split; [exact Hf | split; [reflexivity |]].
  exact (insert_replaces string_serialize _ _ Hf eq_refl).
Defined.

(* ------------------------------------------------------------------ *)
(** ** The repository's tests, run on the model *)

Example serialize_and_deserialize_module_name :
  let v := Module (mkModuleNameSection [109; 121; 95; 109; 111; 100]) in
  (let? b := name_section_serialize v in decode_value b) = Some v.
Proof. reflexivity. Qed.

Example serialize_and_deserialize_function_names :
  let v := Function (mkFunctionNameSection
             (index_map_insert 0 [104; 101; 108; 108; 111; 95; 119; 111; 114; 108; 100]
                index_map_empty)) in
  (let? b := name_section_serialize v in decode_value b) = Some v.
Proof. reflexivity. Qed.

Example serialize_and_deserialize_unparsed :
  (let? b := name_section_serialize (Unparsed 120 [0; 1; 2]) in decode_value b)
  = Some (Unparsed 120 [0; 1; 2]).
Proof. reflexivity. Qed.

Example nested_insertions_ascending :
  local_serialize
    (mkLocalNameSection
       (insert_all [(4, insert_all [(1, [98]); (0, [97])] index_map_empty);
                    (2, index_map_empty)] index_map_empty))
  = Some [2; 2; 0; 4; 2; 0; 1; 97; 1; 1; 98].
Proof. reflexivity. Qed.

(* ================================================================== *)
(** * Further properties of the code *)

(** The module sub-section reads back what it writes, and stops right
    after it. *)
Theorem module_section_roundtrip m bs rest a :
  utf8_valid (name m) = true -> module_serialize m = Some bs ->
  module_deserialize (mkReader (bs ++ rest) a) = (mkReader rest a, Ok m).
Proof. intros Hok Hser. exact (module_roundtrip m bs rest a Hok Hser). Qed.

Lemma module_section_roundtrip_witness :
  module_serialize (mkModuleNameSection [104; 105]) = Some [2; 104; 105] /\
  module_deserialize (mkReader ([2; 104; 105] ++ [7]) [])
  = (mkReader [7] [], Ok (mkModuleNameSection [104; 105])).
Proof.
  split; [reflexivity |].
  apply module_section_roundtrip; reflexivity.
Defined.

(** The function sub-section reads back what it writes. *)
Theorem function_section_roundtrip f bs rest a :
  name_map_ok (names f) = true -> function_serialize f = Some bs ->
  function_deserialize (mkReader (bs ++ rest) a) = (mkReader rest a, Ok f).
Proof. intros Hok Hser. exact (function_roundtrip f bs rest a Hok Hser). Qed.

Lemma function_section_roundtrip_witness :
  let f := mkFunctionNameSection (mkIndexMap [(0, [97]); (3, [98])]) in
  function_serialize f = Some [2; 0; 1; 97; 3; 1; 98] /\
  function_deserialize (mkReader ([2; 0; 1; 97; 3; 1; 98] ++ []) [])
  = (mkReader [] [], Ok f).
Proof.
  intros f. split; [reflexivity |].
  apply function_section_roundtrip; reflexivity.
Defined.

(** The local sub-section (a map of name maps) reads back what it
    writes. *)
Theorem local_section_roundtrip l bs rest a :
  index_map_ok name_map_ok (local_names l) = true -> local_serialize l = Some bs ->
  local_deserialize (mkReader (bs ++ rest) a) = (mkReader rest a, Ok l).
Proof. intros Hok Hser. exact (local_roundtrip l bs rest a Hok Hser). Qed.

Lemma local_section_roundtrip_witness :
  let l := mkLocalNameSection (mkIndexMap [(1, mkIndexMap [(0, [120])])]) in
  local_serialize l = Some [1; 1; 1; 0; 1; 120] /\
  local_deserialize (mkReader ([1; 1; 1; 0; 1; 120] ++ []) [])
  = (mkReader [] [], Ok l).
Proof.
  intros l. split; [reflexivity |].
  apply local_section_roundtrip; reflexivity.
Defined.

(** A module name whose bytes are not UTF-8 is rejected. *)
Theorem module_rejects_invalid_utf8 s rest a :
  utf8_valid s = false -> Z.of_nat (length s) <= U32_MAX ->
  snd (module_deserialize
         (mkReader (varuint32_serialize (Z.of_nat (length s)) ++ s ++ rest) a))
  = Err NonUtf8String.
Proof.
  intros Hs Hl. unfold module_deserialize, string_deserialize.
  assert (Hv : 0 <= Z.of_nat (length s) <= U32_MAX) by lia.
  unfold bind at 1 2.
  rewrite (varuint32_roundtrip _ (s ++ rest) a Hv).
  unfold bind. rewrite read_exact_app, Hs. reflexivity.
Qed.

Lemma module_rejects_invalid_utf8_witness :
  (utf8_valid [255] = false /\ Z.of_nat (length [255]) <= U32_MAX) /\
  snd (module_deserialize (mkReader (varuint32_serialize 1 ++ [255] ++ []) []))
  = Err NonUtf8String.
Proof.
  split; [split; [reflexivity | vm_compute; discriminate] |].
  exact (module_rejects_invalid_utf8 [255] [] [] eq_refl
           ltac:(vm_compute; discriminate)).
Defined.

(** A module name whose declared length runs past the end of the input
    fails with a truncated-input error. *)
Theorem module_truncated_name f n x a :
  varuint32_field f n -> Z.of_nat (length x) < n ->
  snd (module_deserialize (mkReader (f ++ x) a)) = Err UnexpectedEof.
Proof.
  intros Hf Hx. unfold module_deserialize, string_deserialize.
  unfold bind at 1 2. rewrite (Hf x a).
  unfold bind, read_exact. cbn [input allocations].
  replace (n <=? Z.of_nat (length x)) with false by (symmetry; apply Z.leb_gt; lia).
  reflexivity.
Qed.

Lemma module_truncated_name_witness :
  (varuint32_field [5] 5 /\ Z.of_nat (length [104]) < 5) /\
  snd (module_deserialize (mkReader ([5] ++ [104]) [])) = Err UnexpectedEof.
Proof.
  assert (Hf : varuint32_field [5] 5) by (intros x a; reflexivity).
  split; [split; [exact Hf | simpl; lia] |].
  exact (module_truncated_name [5] 5 [104] [] Hf ltac:(simpl; lia)).
Defined.

Lemma bind_err {A B} (m : Decode A) (f : A -> Decode B) r r' e :
  m r = (r', Err e) -> bind m f r = (r', Err e).
Proof. intros H. unfold bind. rewrite H. reflexivity. Qed.

(** A function name map whose second index is not above the first is
    rejected, whatever the name that came before. *)
Theorem function_rejects_unordered_indices k1 s1 sb1 k2 x a :
  0 <= k1 <= U32_MAX -> 0 <= k2 <= k1 ->
  utf8_valid s1 = true -> string_serialize s1 = Some sb1 ->
  snd (function_deserialize
         (mkReader (varuint32_serialize 2 ++ varuint32_serialize k1 ++ sb1
                    ++ varuint32_serialize k2 ++ x) a))
  = Err IndicesOutOfOrder.
Proof.
  intros Hk1 Hk2 Hs Hsb. unfold function_deserialize.
  erewrite bind_err; [reflexivity |].
  unfold name_map_deserialize, index_map_deserialize.
  rewrite (bind_ok _ _ _ _ _ (varuint32_roundtrip 2 _ a ltac:(unfold U32_MAX; lia))).
  change (Z.to_nat 2) with 2%nat. cbn [deserialize_entries].
  rewrite (bind_ok _ _ _ _ _ (varuint32_roundtrip k1 _ a Hk1)).
  rewrite (bind_ok _ _ _ _ _ (string_roundtrip s1 sb1 _ a Hs Hsb)).
  rewrite (bind_ok _ _ _ _ _ (varuint32_roundtrip k2 _ a ltac:(lia))).
  replace (k2 <=? k1) with true by (symmetry; apply Z.leb_le; lia).
  reflexivity.
Qed.

Lemma function_rejects_unordered_indices_witness :
  ((0 <= 5 <= U32_MAX /\ 0 <= 5 <= 5) /\
   utf8_valid [97] = true /\ string_serialize [97] = Some [1; 97]) /\
  snd (function_deserialize
         (mkReader (varuint32_serialize 2 ++ varuint32_serialize 5 ++ [1; 97]
                    ++ varuint32_serialize 5 ++ [1; 98]) []))
  = Err IndicesOutOfOrder.
Proof.
  assert (H1 : 0 <= 5 <= U32_MAX) by (unfold U32_MAX; lia).
  split; [split; [split; [exact H1 | lia] | split; reflexivity] |].
  exact (function_rejects_unordered_indices 5 [97] [1; 97] 5 [1; 98] []
           H1 ltac:(lia) eq_refl eq_refl).
Defined.

Lemma varuint32_loop_eof f : forall fuel shift res a,
  (length f < fuel)%nat -> Forall (fun b => 128 <= b) f ->
  snd (varuint32_loop fuel shift res (mkReader f a)) = Err UnexpectedEof.
Proof.
  induction f as [| b f IH]; intros fuel shift res a Hl Hf;
    (destruct fuel as [| fuel]; [simpl in Hl; lia |]); rewrite varuint32_loop_S.
  - reflexivity.
  - inversion Hf as [| ? ? Hb Hf']; subst.
    unfold bind at 1, read_byte. cbn [input allocations].
    cbv beta iota zeta.
    replace (Z.shiftr b 7 =? 0) with false.
    + apply IH; [simpl in Hl; lia | exact Hf'].
    + symmetry. apply Z.eqb_neq. rewrite Z.shiftr_div_pow2 by lia.
      assert (1 <= b / 2 ^ 7) by (apply Z.div_le_lower_bound; simpl; lia). lia.
Qed.

(** Input that ends before the payload-length field is complete (a valid
    tag, then at most four bytes that all ask for a continuation) fails
    with a truncated-input error. *)
Theorem decode_header_truncated t f :
  0 <= t < 128 -> (length f <= 4)%nat -> Forall (fun b => 128 <= b) f ->
  snd (decode ([t] ++ f)) = Err UnexpectedEof.
Proof.
  intros Ht Hl Hf. unfold decode, name_section_deserialize.
  rewrite (bind_ok _ _ _ _ _ (varuint7_roundtrip t f [])).
  unfold bind at 1. unfold varuint32_deserialize.
  destruct (varuint32_loop 5 0 0 (mkReader f [])) as [r' [v | e]] eqn:Hd;
    pose proof (varuint32_loop_eof f 5 0 0 [] ltac:(lia) Hf) as He;
    rewrite Hd in He; cbn [snd] in He; [discriminate | inversion He; reflexivity].
Qed.

Lemma decode_header_truncated_witness :
  (0 <= 120 < 128 /\ (length [232] <= 4)%nat /\ Forall (fun b => 128 <= b) [232]) /\
  snd (decode ([120] ++ [232])) = Err UnexpectedEof.
Proof.
  assert (Hf : Forall (fun b => 128 <= b) [232]) by (repeat constructor; lia).
  split; [split; [lia | split; [simpl; lia | exact Hf]] |].
  exact (decode_header_truncated 120 [232] ltac:(lia) ltac:(simpl; lia) Hf).
Defined.

(** Two well-formed values with the same encoding are equal. *)
Theorem name_section_serialize_injective v1 v2 bs :
  name_section_ok v1 = true -> unparsed_tag_ok v1 = true ->
  name_section_ok v2 = true -> unparsed_tag_ok v2 = true ->
  name_section_serialize v1 = Some bs -> name_section_serialize v2 = Some bs ->
  v1 = v2.
Proof.
  intros Ho1 Ht1 Ho2 Ht2 Hs1 Hs2.
  pose proof (name_section_roundtrip_gen v1 bs [] [] Ho1 Ht1 Hs1) as H1.
  pose proof (name_section_roundtrip_gen v2 bs [] [] Ho2 Ht2 Hs2) as H2.
  rewrite H1 in H2. congruence.
Qed.

Lemma name_section_serialize_injective_witness :
  let v := Function (mkFunctionNameSection (mkIndexMap [(0, [97])])) in
  ((name_section_ok v = true /\ unparsed_tag_ok v = true) /\
   name_section_serialize v = Some [1; 4; 1; 0; 1; 97]) /\ v = v.
Proof.
  intros v. split; [split; [split; reflexivity | reflexivity] |].
  exact (name_section_serialize_injective v v [1; 4; 1; 0; 1; 97]
           eq_refl eq_refl eq_refl eq_refl eq_refl eq_refl).
Defined.

(** For a known section, the decoded value and the place where decoding
    stops are those of the sub-section's own encoding, whatever value the
    payload-length field holds. *)
Theorem known_section_any_length v t p f n rest :
  match v with Unparsed _ _ => False | _ => True end ->
  name_section_ok v = true -> tag_and_payload v = Some (t, p) ->
  varuint32_field f n ->
  decode ([t] ++ f ++ p ++ rest) = (mkReader rest [], Ok v).
Proof.
  intros Hk Hok Htp Hf. unfold decode, name_section_deserialize.
  destruct v as [m | fs | l | t' p']; cbn [tag_and_payload] in Htp;
    [| | | contradiction].
  - destruct (module_serialize m) as [b |] eqn:Hb; inversion Htp; subst t p.
    rewrite (bind_ok _ _ _ _ _ (varuint7_roundtrip 0 _ _)).
    rewrite (bind_ok _ _ _ _ _ (Hf _ _)).
    cbn -[module_deserialize].
    rewrite (bind_ok _ _ _ _ _ (module_roundtrip m b rest [] Hok Hb)).
    reflexivity.
  - destruct (function_serialize fs) as [b |] eqn:Hb; inversion Htp; subst t p.
    rewrite (bind_ok _ _ _ _ _ (varuint7_roundtrip 1 _ _)).
    rewrite (bind_ok _ _ _ _ _ (Hf _ _)).
    cbn -[function_deserialize].
    rewrite (bind_ok _ _ _ _ _ (function_roundtrip fs b rest [] Hok Hb)).
    reflexivity.
  - destruct (local_serialize l) as [b |] eqn:Hb; inversion Htp; subst t p.
    rewrite (bind_ok _ _ _ _ _ (varuint7_roundtrip 2 _ _)).
    rewrite (bind_ok _ _ _ _ _ (Hf _ _)).
    cbn -[local_deserialize].
    rewrite (bind_ok _ _ _ _ _ (local_roundtrip l b rest [] Hok Hb)).
    reflexivity.
Qed.

Lemma known_section_any_length_witness :
  let v := Module (mkModuleNameSection [104]) in
  (True /\ name_section_ok v = true /\ tag_and_payload v = Some (0, [1; 104]) /\
   varuint32_field [0] 0) /\
  decode ([0] ++ [0] ++ [1; 104] ++ [9]) = (mkReader [9] [], Ok v).
Proof.
  intros v.
  assert (Hf : varuint32_field [0] 0) by (intros x a; reflexivity).
  split; [split; [exact I | split; [reflexivity | split; [reflexivity | exact Hf]]] |].
  exact (known_section_any_length v 0 [1; 104] [0] 0 [9] I eq_refl eq_refl Hf).
Defined.

(** [names_mut().insert(..)] on a well-formed map keeps it well formed:
    the new key is found with the new value, every other key keeps its
    value. *)
Theorem index_map_insert_well_formed {T} (ok : T -> bool) m k v :
  index_map_ok ok m = true -> 0 <= k <= U32_MAX -> ok v = true ->
  index_map_ok ok (index_map_insert k v m) = true /\
  forall x, index_map_get x (index_map_insert k v m)
            = if k =? x then Some v else index_map_get x m.
Proof.
  intros Hm Hk Hv. split.
  - unfold index_map_ok, index_map_insert. cbn [entries].
    apply insert_entry_ok; [exact Hm | unfold above; cbn [fst]; lia | lia | exact Hv].
  - intros x. unfold index_map_get, index_map_insert. cbn [entries].
    rewrite insert_entry_find. destruct (k =? x); reflexivity.
Qed.

Lemma index_map_insert_well_formed_witness :
  let m : NameMap := mkIndexMap [(0, [97]); (4, [98])] in
  (index_map_ok utf8_valid m = true /\ 0 <= 2 <= U32_MAX /\ utf8_valid [99] = true) /\
  index_map_ok utf8_valid (index_map_insert 2 [99] m) = true.
Proof.
  intros m.
  assert (Hk : 0 <= 2 <= U32_MAX) by (unfold U32_MAX; lia).
  split; [split; [reflexivity | split; [exact Hk | reflexivity]] |].
  exact (proj1 (index_map_insert_well_formed utf8_valid m 2 [99] eq_refl Hk eq_refl)).
Defined.
